(** * RealtimeObject: a wait-free exchange of a value between one real-time
      thread and any number of ordinary threads

    Embedding of [pendulum_utils/RealtimeObject.hpp] (namespace [farbot]).
    The header is a thin, policy-selected front over an implementation class
    ([detail::RealtimeMutatable<T>] or [detail::NonRealtimeMutatable<T>]) that
    lives in [pendulum_utils/detail/RealtimeObject.tcc].  That file is not
    part of the sources at hand, so the implementation is an interface here
    (a record of operations), and the slot pool that the specification
    describes is given as a separate model in [Module detail]. *)

From stdpp Require Import base decidable option list.

(** ** Calls that may throw

    A call runs on a state [S] and ends in one of three ways: it returns, it
    leaves by an exception, or the program is terminated ([std::terminate]).
    The state is returned in every case, so that what a failed call left
    behind can be inspected. *)

Inductive Result (E A : Type) : Type :=
| Returned (a : A)
| Thrown (e : E)
| Terminated.
Arguments Returned {E A} a.
Arguments Thrown {E A} e.
Arguments Terminated {E A}.

Definition Call (S E A : Type) : Type := S → Result E A * S.

Definition throw {S E A} (e : E) : Call S E A := λ s, (Thrown e, s).

(** A function declared [noexcept]: an exception that reaches the function's
    boundary does not leave it, [std::terminate] is called instead. *)
Definition noexcept {S E A} (body : Call S E A) : Call S E A :=
  λ s, match body s with
       | (Thrown _, s') => (Terminated, s')
       | r => r
       end.

Definition propagates {E A S} (r : Result E A * S) : bool :=
  match r with (Thrown _, _) => true | _ => false end.

(** ** Types and templates of the header *)

Module farbot.

Inductive RealtimeObjectOptions : Set :=
| nonRealtimeMutatable
| realtimeMutatable.

Inductive ThreadType : Set :=
| realtime
| nonRealtime.

#[global] Instance RealtimeObjectOptions_eq_dec : EqDecision RealtimeObjectOptions.
Proof. solve_decision. Defined.
#[global] Instance ThreadType_eq_dec : EqDecision ThreadType.
Proof. solve_decision. Defined.

(** C++ types built from the template parameter [T]. *)
Inductive CppType : Set :=
| TyT                       (* T *)
| TyConst (t : CppType)     (* const t *)
| TyLRef (t : CppType)      (* t & *)
| TyVoid.

#[global] Instance CppType_eq_dec : EqDecision CppType.
Proof. solve_decision. Defined.

(** [std::conditional_t<B, X, Y>] and [std::enable_if_t<B, X>]; the second has
    no type when [B] is false, which removes the declaration from the
    overload set. *)
Definition conditional_t {A : Type} (b : bool) (x y : A) : A := if b then x else y.
Definition enable_if_t {A : Type} (b : bool) (x : A) : option A :=
  if b then Some x else None.

(** The two implementation classes of namespace [detail]. *)
Inductive ImplClass : Set :=
| RealtimeMutatable
| NonRealtimeMutatable.

(** [using Impl = std::conditional_t<Options == realtimeMutatable, ...>] *)
Definition Impl (Options : RealtimeObjectOptions) : ImplClass :=
  conditional_t (bool_decide (Options = realtimeMutatable))
                RealtimeMutatable NonRealtimeMutatable.

Definition RealtimeAcquireReturnType (Options : RealtimeObjectOptions) : CppType :=
  conditional_t (bool_decide (Options = nonRealtimeMutatable)) (TyConst TyT) TyT.

Definition NonRealtimeAcquireReturnType (Options : RealtimeObjectOptions) : CppType :=
  conditional_t (bool_decide (Options = realtimeMutatable)) (TyConst TyT) TyT.

(** The six member functions of [RealtimeObject]. *)
Inductive Member : Set :=
| MRealtimeAcquire
| MRealtimeRelease
| MRealtimeReplace
| MNonRealtimeAcquire
| MNonRealtimeRelease
| MNonRealtimeReplace.

#[global] Instance Member_eq_dec : EqDecision Member.
Proof. solve_decision. Defined.

(** Which side a member belongs to. *)
Definition side_of (m : Member) : ThreadType :=
  match m with
  | MRealtimeAcquire | MRealtimeRelease | MRealtimeReplace => realtime
  | MNonRealtimeAcquire | MNonRealtimeRelease | MNonRealtimeReplace => nonRealtime
  end.

(** The [noexcept] specifier as written on each declaration. *)
Definition declared_noexcept (m : Member) : bool :=
  match m with
  | MRealtimeAcquire => true
  | MRealtimeRelease => true
  | MRealtimeReplace => true
  | MNonRealtimeAcquire => false
  | MNonRealtimeRelease => false
  | MNonRealtimeReplace => false
  end.

(** The declared return type.  For the two replace templates the parameter
    [O] is the first template argument, which defaults to [Options] but is
    whatever the call site names; the return type exists only when the
    [enable_if_t] condition on [O] holds ([std::void_t<Args...>] is [void]). *)
Definition return_type (Options O : RealtimeObjectOptions) (m : Member) : option CppType :=
  match m with
  | MRealtimeAcquire => Some (TyLRef (RealtimeAcquireReturnType Options))
  | MRealtimeRelease => Some TyVoid
  | MRealtimeReplace => enable_if_t (bool_decide (O = realtimeMutatable)) TyVoid
  | MNonRealtimeAcquire => Some (TyLRef (NonRealtimeAcquireReturnType Options))
  | MNonRealtimeRelease => Some TyVoid
  | MNonRealtimeReplace => enable_if_t (bool_decide (O = nonRealtimeMutatable)) TyVoid
  end.

(** The acquire, release and replace member of each side. *)
Definition acquire_member (side : ThreadType) : Member :=
  match side with realtime => MRealtimeAcquire | nonRealtime => MNonRealtimeAcquire end.
Definition release_member (side : ThreadType) : Member :=
  match side with realtime => MRealtimeRelease | nonRealtime => MNonRealtimeRelease end.
Definition replace_member (side : ThreadType) : Member :=
  match side with realtime => MRealtimeReplace | nonRealtime => MNonRealtimeReplace end.

(** The side on which replace is declared when the call names no template
    argument ([O] is then [Options]): the mutator of the policy. *)
Definition is_mutator (Options : RealtimeObjectOptions) (side : ThreadType) : bool :=
  bool_decide (is_Some (return_type Options Options (replace_member side))).

(** Whether an lvalue of the given type can be used to modify the [T] it
    designates: a reference to non-const [T] can, a reference to [const T]
    cannot. *)
Definition permits_mutation (t : CppType) : bool :=
  match t with
  | TyLRef TyT => true
  | _ => false
  end.



(** What the header expects of [mImpl].  Acquire and release exist in both
    implementation classes; a replace member may be absent from a class, and
    a call to an absent member does not compile. *)
Record ImplOps (S E R Args : Type) : Type := mkImplOps {
  impl_realtimeAcquire : Call S E R;
  impl_realtimeRelease : Call S E unit;
  impl_realtimeReplace : option (Args → Call S E unit);
  impl_nonRealtimeAcquire : Call S E R;
  impl_nonRealtimeRelease : Call S E unit;
  impl_nonRealtimeReplace : option (Args → Call S E unit)
}.
Arguments mkImplOps {S E R Args}.
Arguments impl_realtimeAcquire {S E R Args} i.
Arguments impl_realtimeRelease {S E R Args} i.
Arguments impl_realtimeReplace {S E R Args} i.
Arguments impl_nonRealtimeAcquire {S E R Args} i.
Arguments impl_nonRealtimeRelease {S E R Args} i.
Arguments impl_nonRealtimeReplace {S E R Args} i.

(** ** The implementation classes (namespace [detail])

    [pendulum_utils/detail/RealtimeObject.tcc] is not among the sources.
    Everything in this module follows the specification's description of the
    Slot Pool and of the Exchange Protocol. *)

Module detail.

(** Modelled from the spec: the tag of a Value Slot (the slot declaration of
    the missing [RealtimeObject.tcc]).  "an atomic tri-state tag ([Free],
    [Current], [Reading(n)])", with [Reading(count >= 1)]. *)
Inductive Tag : Set :=
| Free
| Current
| Reading (count : nat).

#[global] Instance Tag_eq_dec : EqDecision Tag.
Proof. solve_decision. Defined.

(** Modelled from the spec: a Value Slot, missing from the sources, "holds
    one constructed instance of T plus an atomic tag". *)
Record Slot (T : Type) : Type := mkSlot { value : T; tag : Tag }.
Arguments mkSlot {T} value tag.
Arguments value {T} s.
Arguments tag {T} s.

(** Modelled from the spec: the Pool, missing from the sources, "an ordered,
    fixed-capacity collection of Value Slots".  The operations speak of "the
    Current slot" also while that slot's tag is [Reading] ("demotes the
    previous Current slot to Free only if its reader count is zero, otherwise
    leaves it Reading"; "if it reaches zero and the slot is no longer
    Current"), so which slot holds the most recently published value is kept
    next to the tags; it is [None] before the first publication. *)
Record Pool (T : Type) : Type := mkPool { slots : list (Slot T); current : option nat }.
Arguments mkPool {T} slots current.
Arguments slots {T} p.
Arguments current {T} p.

(** Modelled from the spec: the failures of the missing Slot Pool, "fails
    with NoFreeSlot" and the "protocol misuse" of a release without acquire. *)
Inductive PoolError : Set :=
| NoFreeSlot
| ProtocolMisuse.

Section SlotPool.
Context {T : Type}.

Definition capacity (p : Pool T) : nat := length (slots p).
Definition tag_at (p : Pool T) (i : nat) : option Tag := tag <$> slots p !! i.
Definition value_at (p : Pool T) (i : nat) : option T := value <$> slots p !! i.

Definition set_tag (t : Tag) (s : Slot T) : Slot T := mkSlot (value s) t.
Definition set_value (v : T) (s : Slot T) : Slot T := mkSlot v (tag s).

(** The reader count carried by a tag. *)
Definition readers (t : Tag) : nat :=
  match t with
  | Reading n => n
  | _ => 0
  end.

(** Modelled from the spec: the Pool before the first publication, missing
    from the sources: [N] slots, none of them published. *)
Definition empty_pool (N : nat) (d : T) : Pool T :=
  mkPool (replicate N (mkSlot d Free)) None.

(** Modelled from the spec: [findFreeSlot] of the missing Slot Pool, "scans
    slots for one tagged Free; returns its index or fails with NoFreeSlot". *)
Definition findFreeSlot (p : Pool T) : PoolError + nat :=
  match list_find (λ s, tag s = Free) (slots p) with
  | Some (i, _) => inr i
  | None => inl NoFreeSlot
  end.

(** Modelled from the spec: the demotion inside the missing [publish],
    "demotes the previous Current slot to Free only if its reader count is
    zero, otherwise leaves it Reading". *)
Definition demote (t : Tag) : Tag :=
  match readers t with
  | 0 => Free
  | _ => t
  end.

(** Modelled from the spec: [publish] of the missing Slot Pool, "atomically
    retags index as Current and demotes the previous Current slot". *)
Definition publish (i : nat) (p : Pool T) : Pool T :=
  let demoted :=
    match current p with
    | Some c => alter (λ s, set_tag (demote (tag s)) s) c (slots p)
    | None => slots p
    end in
  mkPool (alter (set_tag Current) i demoted) (Some i).

(** Modelled from the spec: [beginRead] of the missing Slot Pool, "atomically
    reads the tag of the Current slot and increments its reader count in one
    indivisible step; returns the slot index".  There is nothing to read
    before the first publication. *)
Definition beginRead (p : Pool T) : option (nat * Pool T) :=
  match current p with
  | Some c =>
      Some (c, mkPool (alter (λ s, set_tag (Reading (S (readers (tag s)))) s) c (slots p))
                      (current p))
  | None => None
  end.

(** Modelled from the spec: [endRead] of the missing Slot Pool, "decrements
    the reader count; if it reaches zero and the slot is no longer Current,
    retags it Free".  A slot that is still the Current one goes back to the
    tag [Current].  Releasing a slot nobody reads is protocol misuse. *)
Definition endRead (i : nat) (p : Pool T) : PoolError + Pool T :=
  match tag_at p i with
  | Some (Reading n) =>
      let t := match n - 1 with
               | 0 => if decide (current p = Some i) then Current else Free
               | n' => Reading n'
               end in
      inr (mkPool (alter (set_tag t) i (slots p)) (current p))
  | _ => inl ProtocolMisuse
  end.

(** Modelled from the spec: the construction step of the missing replace,
    "constructs a new T from args into a slot"; the tag is not touched. *)
Definition construct (i : nat) (v : T) (p : Pool T) : Pool T :=
  mkPool (alter (set_value v) i (slots p)) (current p).

(** The number of slots carrying a given tag. *)
Definition count_tagged (t : Tag) (p : Pool T) : nat :=
  length (filter (λ s, tag s = t) (slots p)).

(** *** Atomic steps *)

(** Modelled from the spec: the atomic steps of the missing Slot Pool.
    Every operation of the pool is one indivisible step, so an interleaving
    of threads is a sequence of steps. *)
Inductive Op : Type :=
| OpFindFreeSlot
| OpConstruct (i : nat) (v : T)
| OpPublish (i : nat)
| OpBeginRead
| OpEndRead (i : nat).

(** Modelled from the spec: one step of the missing Slot Pool.  A step that
    the protocol does not allow in the state at hand (construction into, or
    publication of, a slot that is not [Free]; a release of a slot that is
    not being read; a read before anything was published) has no successor. *)
Definition step (op : Op) (p : Pool T) : option (Pool T) :=
  match op with
  | OpFindFreeSlot => Some p
  | OpConstruct i v =>
      if decide (tag_at p i = Some Free) then Some (construct i v p) else None
  | OpPublish i =>
      if decide (tag_at p i = Some Free) then Some (publish i p) else None
  | OpBeginRead => snd <$> beginRead p
  | OpEndRead i =>
      match endRead i p with
      | inr p' => Some p'
      | inl _ => None
      end
  end.

Fixpoint run (ops : list Op) (p : Pool T) : option (Pool T) :=
  match ops with
  | [] => Some p
  | op :: ops' =>
      match step op p with
      | Some p' => run ops' p'
      | None => None
      end
  end.

Definition is_publish (op : Op) : bool :=
  match op with
  | OpPublish _ => true
  | _ => false
  end.

(** Whether a publication occurs in a sequence of steps. *)
Definition published (ops : list Op) : bool := existsb is_publish ops.

(** *** Well-formed pools *)

(** Modelled from the spec: the tag discipline of the missing Slot Pool.
    The slot holding the most recently published value is tagged [Current]
    or [Reading]; no other slot is tagged [Current]; a reader count under
    [Reading] is at least one. *)
Definition tag_ok (cur : option nat) (i : nat) (t : Tag) : Prop :=
  match t with
  | Free => cur ≠ Some i
  | Current => cur = Some i
  | Reading n => 1 ≤ n
  end.

Definition wf (p : Pool T) : Prop :=
  (∀ i s, slots p !! i = Some s → tag_ok (current p) i (tag s)) ∧
  (∀ c, current p = Some c → c < capacity p).

(** Modelled from the spec: a draining slot of the missing Slot Pool, one
    that is no longer the Current one and still has readers. *)
Definition draining (p : Pool T) (i : nat) : Prop :=
  current p ≠ Some i ∧ ∃ n, tag_at p i = Some (Reading n).

(** Modelled from the spec: the sizing invariant of the missing Slot Pool,
    "N large enough that a writer always finds a Free slot while at most one
    prior Current slot is still draining readers": next to the Current slot
    and one draining slot there is room for a third slot. *)
Definition sizing_invariant (p : Pool T) : Prop :=
  3 ≤ capacity p ∧ ∀ i j, draining p i → draining p j → i = j.

(** *** Readers, counted from the history

    What a sequence of steps says by itself, without looking at any tag:
    which slot was published last, and for every slot how many reads were
    begun on it and not yet ended.  A read begins on the slot published
    last. *)
Definition bump (c : nat) (g : nat → nat) : nat → nat :=
  λ j, if decide (j = c) then S (g j) else g j.

Definition unbump (c : nat) (g : nat → nat) : nat → nat :=
  λ j, if decide (j = c) then pred (g j) else g j.

Definition last_published_step (cur : option nat) (op : Op) : option nat :=
  match op with
  | OpPublish i => Some i
  | _ => cur
  end.

Definition outstanding_step (cur : option nat) (g : nat → nat) (op : Op) : nat → nat :=
  match op with
  | OpBeginRead => match cur with Some c => bump c g | None => g end
  | OpEndRead i => unbump i g
  | _ => g
  end.

Fixpoint last_published_from (cur : option nat) (ops : list Op) : option nat :=
  match ops with
  | [] => cur
  | op :: ops' => last_published_from (last_published_step cur op) ops'
  end.

Fixpoint outstanding_from (cur : option nat) (g : nat → nat) (ops : list Op) : nat → nat :=
  match ops with
  | [] => g
  | op :: ops' =>
      outstanding_from (last_published_step cur op) (outstanding_step cur g op) ops'
  end.

Definition last_published (ops : list Op) : option nat := last_published_from None ops.
Definition outstanding (ops : list Op) : nat → nat := outstanding_from None (λ _, 0) ops.

(** Slot [i] has an unfinished read at every moment of [ops], counted from
    the history as above. *)
Fixpoint stays_held (i : nat) (cur : option nat) (g : nat → nat) (ops : list Op) : Prop :=
  1 ≤ g i ∧
  match ops with
  | [] => True
  | op :: ops' =>
      stays_held i (last_published_step cur op) (outstanding_step cur g op) ops'
  end.

(** Modelled from the spec: the tag that the missing Slot Pool gives a slot
    with [n] unfinished reads: [Reading(n)] for [n >= 1]; with none,
    [Current] for the slot published last and [Free] for any other. *)
Definition expected_tag (cur : option nat) (i n : nat) : Tag :=
  match n with
  | 0 => if decide (cur = Some i) then Current else Free
  | _ => Reading n
  end.

(** The tags of the pool are those that the unfinished reads [g] call for. *)
Definition exact (p : Pool T) (g : nat → nat) : Prop :=
  (∀ i s, slots p !! i = Some s → tag s = expected_tag (current p) i (g i)) ∧
  (∀ c, current p = Some c → c < capacity p).

End SlotPool.
Arguments Op T : clear implicits.

(** Modelled from the spec: the state of the Exchange Protocol, missing from
    the sources: the Pool, and for each side the slot its last acquire
    handed out, which the matching release gives back ("release must be
    paired 1:1 with a prior acquire on the same side"). *)
Record Exchange (T : Type) : Type :=
  mkExchange { pool : Pool T; rtHeld : option nat; nrtHeld : option nat }.
Arguments mkExchange {T} pool rtHeld nrtHeld.
Arguments pool {T} e.
Arguments rtHeld {T} e.
Arguments nrtHeld {T} e.

Section ExchangeProtocol.
Context {T E Args : Type}.

(** [T]'s constructor, which may fail with an exception. *)
Variable ctor : Args → E + T.

Definition held (side : ThreadType) (x : Exchange T) : option nat :=
  match side with
  | realtime => rtHeld x
  | nonRealtime => nrtHeld x
  end.

Definition set_pool (p : Pool T) (x : Exchange T) : Exchange T :=
  mkExchange p (rtHeld x) (nrtHeld x).

Definition set_held (side : ThreadType) (h : option nat) (x : Exchange T) : Exchange T :=
  match side with
  | realtime => mkExchange (pool x) h (nrtHeld x)
  | nonRealtime => mkExchange (pool x) (rtHeld x) h
  end.

(** Modelled from the spec: [acquire] of the missing implementation class,
    "calls beginRead() on the Pool"; the reference it returns is the index of
    the slot.  The lock that the non-designated side takes first orders the
    callers of that side among themselves and is not part of the state. *)
Definition acquire (side : ThreadType) : Call (Exchange T) E nat :=
  λ x, match beginRead (pool x) with
       | Some (i, p') => (Returned i, set_held side (Some i) (set_pool p' x))
       | None => (Terminated, x)
       end.

(** Modelled from the spec: [release] of the missing implementation class,
    "calls endRead()"; a release without a matching acquire is "reported via
    an assertion/fatal contract". *)
Definition release (side : ThreadType) : Call (Exchange T) E unit :=
  λ x, match held side x with
       | Some i =>
           match endRead i (pool x) with
           | inr p' => (Returned (), set_held side None (set_pool p' x))
           | inl _ => (Terminated, x)
           end
       | None => (Terminated, x)
       end.

(** Modelled from the spec: [replace] of the missing implementation class,
    "constructs a new T from args into a slot obtained from findFreeSlot(),
    then publish()es it".  Pool exhaustion "is a fatal invariant violation,
    not a retryable condition"; a constructor failure leaves by the
    constructor's exception. *)
Definition replace (args : Args) : Call (Exchange T) E unit :=
  λ x, match findFreeSlot (pool x) with
       | inl _ => (Terminated, x)
       | inr i =>
           match ctor args with
           | inl e => (Thrown e, x)
           | inr v => (Returned (), set_pool (publish i (construct i v (pool x))) x)
           end
       end.

(** The value a reference designates. *)
Definition deref (i : nat) (x : Exchange T) : option T := value_at (pool x) i.

(** Modelled from the spec: the members of the two missing implementation
    classes: "under RealtimeMutatable, this side owns replace"; "under
    NonRealtimeMutatable, this side has no replace"; on the non-designated
    side replace exists "only when this side is the mutator". *)
Definition class_ops (k : ImplClass) : ImplOps (Exchange T) E nat Args :=
  mkImplOps
    (acquire realtime)
    (release realtime)
    (match k with RealtimeMutatable => Some replace | NonRealtimeMutatable => None end)
    (acquire nonRealtime)
    (release nonRealtime)
    (match k with RealtimeMutatable => None | NonRealtimeMutatable => Some replace end).

End ExchangeProtocol.

(** Modelled from the spec: the constructor and destructor of the missing
    base class [ScopedAccess<bool isRealtime>] of an implementation class,
    "on construction it calls that side's acquire; on destruction it calls
    the matching release". *)
Definition ImplScopedAccess_ctor (isRealtime : bool) : list Member :=
  [if isRealtime then MRealtimeAcquire else MNonRealtimeAcquire].
Definition ImplScopedAccess_dtor (isRealtime : bool) : list Member :=
  [if isRealtime then MRealtimeRelease else MNonRealtimeRelease].

End detail.

(** ** The member functions of [RealtimeObject<T, Options>] *)

Section RealtimeObject.
Context {S E R Args : Type}.
Variable Options : RealtimeObjectOptions.
Variable mImpl : ImplOps S E R Args.

(** A call of member [m] whose body is [body]: the [noexcept] specifier of
    the declaration decides what becomes of an exception of the body. *)
Definition invoke {A : Type} (m : Member) (body : Call S E A) : Call S E A :=
  if declared_noexcept m then noexcept body else body.

Definition realtimeAcquire : Call S E R :=
  invoke MRealtimeAcquire (impl_realtimeAcquire mImpl).

Definition realtimeRelease : Call S E unit :=
  invoke MRealtimeRelease (impl_realtimeRelease mImpl).

Definition nonRealtimeAcquire : Call S E R :=
  invoke MNonRealtimeAcquire (impl_nonRealtimeAcquire mImpl).

Definition nonRealtimeRelease : Call S E unit :=
  invoke MNonRealtimeRelease (impl_nonRealtimeRelease mImpl).

(** The replace templates.  [O] is the explicit first template argument of
    the call, if any; the default is [Options].  The result is [None] when
    the call does not compile: either the return type does not exist
    (substitution failure, no other overload), or the body names a member
    that [mImpl] does not have. *)
Definition realtimeReplace (O : option RealtimeObjectOptions) (args : Args)
  : option (Call S E unit) :=
  match return_type Options (default Options O) MRealtimeReplace with
  | Some _ =>
      match impl_realtimeReplace mImpl with
      | Some body => Some (invoke MRealtimeReplace (body args))
      | None => None
      end
  | None => None
  end.

Definition nonRealtimeReplace (O : option RealtimeObjectOptions) (args : Args)
  : option (Call S E unit) :=
  match return_type Options (default Options O) MNonRealtimeReplace with
  | Some _ =>
      match impl_nonRealtimeReplace mImpl with
      | Some body => Some (invoke MNonRealtimeReplace (body args))
      | None => None
      end
  | None => None
  end.

End RealtimeObject.

(** ** [ScopedAccess<threadType>] *)

(** The constructor passes [threadType == ThreadType::realtime] to the base
    class of the implementation; the destructor is the implicit one, which
    runs the base destructor. *)
Definition ScopedAccess_ctor (threadType : ThreadType) : list Member :=
  detail.ImplScopedAccess_ctor (bool_decide (threadType = realtime)).
Definition ScopedAccess_dtor (threadType : ThreadType) : list Member :=
  detail.ImplScopedAccess_dtor (bool_decide (threadType = realtime)).

(** The four special members that the class declares, each [= delete]. *)
Inductive SpecialMember : Set :=
| CopyConstructor
| MoveConstructor
| CopyAssignment
| MoveAssignment.

Inductive Definedness : Set :=
| Deleted
| Usable.

#[global] Instance Definedness_eq_dec : EqDecision Definedness.
Proof. solve_decision. Defined.

Definition ScopedAccess_special (Options : RealtimeObjectOptions) (threadType : ThreadType)
    (m : SpecialMember) : Definedness :=
  match m with
  | CopyConstructor => Deleted
  | MoveConstructor => Deleted
  | CopyAssignment => Deleted
  | MoveAssignment => Deleted
  end.

Inductive ValueCategory : Set :=
| LValue
| RValue.

(** The category of an expression of guard type: the name of a guard
    (lvalue), a guard cast to an rvalue reference as by [std::move]
    (xvalue), or an expression that creates a guard, such as
    [ScopedAccess<tt>(object)] or a call of a function returning one
    (prvalue). *)
Inductive ExprCategory : Set :=
| Lvalue
| Xvalue
| Prvalue.

#[global] Instance ExprCategory_eq_dec : EqDecision ExprCategory.
Proof. solve_decision. Defined.

(** Making a guard from an expression of guard type, or assigning such an
    expression to a guard. *)
Inductive GuardUse : Set :=
| ConstructFrom (c : ExprCategory)
| AssignFrom (c : ExprCategory).

#[global] Instance GuardUse_eq_dec : EqDecision GuardUse.
Proof. solve_decision. Defined.

(** The special member that the use calls.  Overload resolution picks the
    copy member for an lvalue and the move member for an xvalue.  A prvalue
    that initialises a guard is not copied or moved (the header needs C++17
    for [std::void_t], where the prvalue's own initialiser initialises the
    new object and no constructor is looked up); a prvalue on the right of
    an assignment is bound to the parameter of the move assignment. *)
Definition selected_member (u : GuardUse) : option SpecialMember :=
  match u with
  | ConstructFrom Lvalue => Some CopyConstructor
  | ConstructFrom Xvalue => Some MoveConstructor
  | ConstructFrom Prvalue => None
  | AssignFrom Lvalue => Some CopyAssignment
  | AssignFrom Xvalue => Some MoveAssignment
  | AssignFrom Prvalue => Some MoveAssignment
  end.

(** A use is ill-formed when the member it calls is deleted. *)
Definition compiles (Options : RealtimeObjectOptions) (threadType : ThreadType)
    (u : GuardUse) : bool :=
  match selected_member u with
  | Some m => bool_decide (ScopedAccess_special Options threadType m = Usable)
  | None => true
  end.

(** *** Code that runs under a guard

    A block may fall through its end, return early, or be left by an
    exception on its way to a handler.  An exception for which there is no
    handler, or whose search for a handler meets the boundary of a
    [noexcept] function, ends the program in [std::terminate];
    [Terminating k] is that end, with [k] enclosing scopes still destroyed
    before [std::terminate] is called (how far the stack is unwound before
    it is implementation-defined). *)
Inductive Exit : Set :=
| Fallthrough
| EarlyReturn
| Unwind
| Terminating (k : nat).

Definition is_terminating (x : Exit) : bool :=
  match x with
  | Terminating _ => true
  | _ => false
  end.

Inductive Event : Set :=
| Called (m : Member)
| Work (n : nat).

#[global] Instance Event_eq_dec : EqDecision Event.
Proof. solve_decision. Defined.

(** [STry a handler] is [try { a } catch (...) { handler }];
    [SNoexcept body] is a call of a function declared [noexcept] whose body
    is [body] (the real-time members of [RealtimeObject] are such
    functions); [SScoped tt body] is the block
    [{ ScopedAccess<tt> guard(object); body }]. *)
Inductive Stmt : Set :=
| SWork (n : nat)
| SReturn
| SThrow
| SSeq (a b : Stmt)
| STry (a handler : Stmt)
| SNoexcept (body : Stmt)
| SScoped (threadType : ThreadType) (body : Stmt).

(** [exec u h s] runs [s].  [h] tells whether an exception thrown here finds
    a handler: it does inside a [try] block, it does not inside a [noexcept]
    function outside of any [try] block of that function, and for the code
    as a whole it is for the caller to say.  [u] is the number of scopes
    that the implementation unwinds before it calls [std::terminate].  The
    destructor of a guard runs when its block is left, and when the block is
    among the scopes unwound before [std::terminate]; it does not run
    otherwise.  Nothing outside a [noexcept] function is unwound when the
    search for a handler ends at that function. *)
Fixpoint exec (u : nat) (h : bool) (s : Stmt) : list Event * Exit :=
  match s with
  | SWork n => ([Work n], Fallthrough)
  | SReturn => ([], EarlyReturn)
  | SThrow => ([], if h then Unwind else Terminating u)
  | SSeq a b =>
      match exec u h a with
      | (ta, Fallthrough) => let '(tb, x) := exec u h b in (ta ++ tb, x)
      | r => r
      end
  | STry a handler =>
      match exec u true a with
      | (ta, Unwind) => let '(th, x) := exec u h handler in (ta ++ th, x)
      | r => r
      end
  | SNoexcept body =>
      let '(tb, x) := exec u false body in
      (tb, match x with
           | Fallthrough | EarlyReturn => Fallthrough
           | Unwind | Terminating _ => Terminating 0
           end)
  | SScoped threadType body =>
      let '(tb, x) := exec u h body in
      match x with
      | Terminating 0 =>
          (map Called (ScopedAccess_ctor threadType) ++ tb, Terminating 0)
      | Terminating (S k) =>
          (map Called (ScopedAccess_ctor threadType) ++ tb
             ++ map Called (ScopedAccess_dtor threadType), Terminating k)
      | _ =>
          (map Called (ScopedAccess_ctor threadType) ++ tb
             ++ map Called (ScopedAccess_dtor threadType), x)
      end
  end.

(** How often member [m] is called in a trace. *)
Definition calls (m : Member) (tr : list Event) : nat :=
  length (filter (λ e, e = Called m) tr).

(** ** The interface seen from the other side *)

(** Exchanging the two policies, the two thread types, and each member with
    its counterpart on the other side. *)
Definition other_policy (Options : RealtimeObjectOptions) : RealtimeObjectOptions :=
  match Options with
  | nonRealtimeMutatable => realtimeMutatable
  | realtimeMutatable => nonRealtimeMutatable
  end.

Definition other_side (side : ThreadType) : ThreadType :=
  match side with
  | realtime => nonRealtime
  | nonRealtime => realtime
  end.

Definition mirror (m : Member) : Member :=
  match m with
  | MRealtimeAcquire => MNonRealtimeAcquire
  | MRealtimeRelease => MNonRealtimeRelease
  | MRealtimeReplace => MNonRealtimeReplace
  | MNonRealtimeAcquire => MRealtimeAcquire
  | MNonRealtimeRelease => MRealtimeRelease
  | MNonRealtimeReplace => MRealtimeReplace
  end.

(** The implementation class written for the side that is the mutator. *)
Definition class_of_mutator (side : ThreadType) : ImplClass :=
  match side with
  | realtime => RealtimeMutatable
  | nonRealtime => NonRealtimeMutatable
  end.

(** ** The constructors of [RealtimeObject] *)

(** [RealtimeObject() = default], [explicit RealtimeObject(const T &)] and
    [explicit RealtimeObject(T &&)]. *)
Inductive Constructor : Set :=
| DefaultConstructor
| CopyFromT
| MoveFromT.

#[global] Instance Constructor_eq_dec : EqDecision Constructor.
Proof. solve_decision. Defined.

Definition declared_constructors : list Constructor :=
  [DefaultConstructor; CopyFromT; MoveFromT].

Definition is_explicit (c : Constructor) : bool :=
  match c with
  | DefaultConstructor => false
  | CopyFromT => true
  | MoveFromT => true
  end.

(** What an object is initialised from: nothing, or an expression of type
    [T] with its value category and constness. *)
Inductive Initializer : Set :=
| NoArgument
| FromT (c : ValueCategory) (is_const : bool).

(** [RealtimeObject x(a)] against [RealtimeObject x = a] (and every implicit
    conversion: argument passing, [return]). *)
Inductive InitForm : Set :=
| DirectInit
| CopyInit.

(** A [const T &] parameter binds every expression of type [T]; a [T &&]
    parameter binds only rvalues that are not const. *)
Definition viable (a : Initializer) (c : Constructor) : bool :=
  match c, a with
  | DefaultConstructor, NoArgument => true
  | CopyFromT, FromT _ _ => true
  | MoveFromT, FromT RValue false => true
  | _, _ => false
  end.

(** Copy-initialisation leaves explicit constructors out of the candidates. *)
Definition candidate (form : InitForm) (c : Constructor) : bool :=
  match form with
  | DirectInit => true
  | CopyInit => negb (is_explicit c)
  end.

(** Among the viable candidates the rvalue-reference overload is the better
    match; without a viable candidate the initialisation does not compile. *)
Definition resolve (form : InitForm) (a : Initializer) : option Constructor :=
  let cs := filter (λ c, candidate form c && viable a c = true) declared_constructors in
  if bool_decide (MoveFromT ∈ cs) then Some MoveFromT else head cs.

(** ** Straight-line code of the real-time thread *)

(** One call after the other; a call that does not return ends the run. *)
Definition and_then {S E A B : Type} (m : Call S E A) (k : Call S E B) : Call S E B :=
  λ s, match m s with
       | (Returned _, s') => k s'
       | (Thrown e, s') => (Thrown e, s')
       | (Terminated, s') => (Terminated, s')
       end.

Inductive RtCall (Args : Type) : Type :=
| RtAcquire
| RtRelease
| RtReplace (args : Args).
Arguments RtAcquire {Args}.
Arguments RtRelease {Args}.
Arguments RtReplace {Args} args.

Section RealtimeClient.
Context {S E R Args : Type}.
Variable Options : RealtimeObjectOptions.
Variable mImpl : ImplOps S E R Args.

(** A call with no explicit template argument; [None] when it does not
    compile. *)
Definition rt_call (c : RtCall Args) : option (Call S E unit) :=
  match c with
  | RtAcquire => Some (and_then (realtimeAcquire mImpl) (λ s, (Returned (), s)))
  | RtRelease => Some (realtimeRelease mImpl)
  | RtReplace args => realtimeReplace Options mImpl None args
  end.

Fixpoint rt_program (cs : list (RtCall Args)) : option (Call S E unit) :=
  match cs with
  | [] => Some (λ s, (Returned (), s))
  | c :: cs' =>
      match rt_call c, rt_program cs' with
      | Some m, Some k => Some (and_then m k)
      | _, _ => None
      end
  end.

Definition is_replace (c : RtCall Args) : bool :=
  match c with
  | RtReplace _ => true
  | _ => false
  end.

End RealtimeClient.

End farbot.

Import farbot farbot.detail.

(** * Properties of the header *)

(** ** Return types of acquire *)

Lemma is_mutator_cases Options side :
  is_mutator Options side = true ↔
  (Options = realtimeMutatable ∧ side = realtime) ∨
  (Options = nonRealtimeMutatable ∧ side = nonRealtime).
Proof.
  destruct Options, side; vm_compute; split; intros H;
    solve [ reflexivity | discriminate | (left; done) | (right; done)
          | (destruct H as [[? ?]|[? ?]]; discriminate) ].
Qed.

(** C3.  Under [realtimeMutatable], [realtimeAcquire] returns [T &] and
    [nonRealtimeAcquire] returns [const T &]; under [nonRealtimeMutatable] it
    is the other way round.  The acquire of a side permits in-place mutation
    exactly when that side is the mutator of the policy. *)
Theorem acquire_return_types :
  ∀ O : RealtimeObjectOptions,
    return_type realtimeMutatable O MRealtimeAcquire = Some (TyLRef TyT) ∧
    return_type realtimeMutatable O MNonRealtimeAcquire = Some (TyLRef (TyConst TyT)) ∧
    return_type nonRealtimeMutatable O MRealtimeAcquire = Some (TyLRef (TyConst TyT)) ∧
    return_type nonRealtimeMutatable O MNonRealtimeAcquire = Some (TyLRef TyT) ∧
    ∀ Options side,
      (permits_mutation <$> return_type Options O (acquire_member side))
      = Some (is_mutator Options side).
Proof.
  intros O. repeat split; try reflexivity.
  intros [] []; reflexivity.
Qed.

(** ** Where replace can be called *)

(** The [enable_if_t] gate alone: a call that names no template argument is
    removed from the overload set on the side that is not the mutator,
    whatever the implementation class offers. *)
Lemma replace_gate {S E R Args} (mImpl : ImplOps S E R Args) (args : Args) :
  realtimeReplace nonRealtimeMutatable mImpl None args = None ∧
  nonRealtimeReplace realtimeMutatable mImpl None args = None.
Proof. split; reflexivity. Qed.

(** C4.  [realtimeReplace] cannot be called on a [nonRealtimeMutatable]
    object and [nonRealtimeReplace] cannot be called on a
    [realtimeMutatable] one: the call does not compile, whichever template
    argument it names, so there is no run of it at all.  On the mutator's
    side the plain call compiles. *)
Theorem replace_only_on_mutator_side :
  ∀ (T E Args : Type) (ctor : Args → E + T) (args : Args),
    (∀ O, realtimeReplace nonRealtimeMutatable
            (class_ops ctor (Impl nonRealtimeMutatable)) O args = None) ∧
    (∀ O, nonRealtimeReplace realtimeMutatable
            (class_ops ctor (Impl realtimeMutatable)) O args = None) ∧
    (∀ S R (mImpl : ImplOps S E R Args),
        realtimeReplace nonRealtimeMutatable mImpl None args = None ∧
        nonRealtimeReplace realtimeMutatable mImpl None args = None) ∧
    is_Some (realtimeReplace realtimeMutatable
               (class_ops ctor (Impl realtimeMutatable)) None args) ∧
    is_Some (nonRealtimeReplace nonRealtimeMutatable
               (class_ops ctor (Impl nonRealtimeMutatable)) None args).
Proof.
  intros T E Args ctor args. split_and!.
  - intros [[]|]; reflexivity.
  - intros [[]|]; reflexivity.
  - intros S R mImpl. apply replace_gate.
  - eexists. reflexivity.
  - eexists. reflexivity.
Qed.

(** ** The guard cannot be copied or moved *)

(** C8.  For every policy and thread type, the copy constructor, the move
    constructor, the copy assignment and the move assignment of
    [ScopedAccess] are deleted.  Every use that would call one of them, to
    make a guard from a guard or to assign to a guard, does not compile.  The
    one use that compiles is the initialisation of a guard by an expression
    that creates it, and that calls none of the four: no guard is ever
    duplicated or handed over. *)
Theorem ScopedAccess_not_copyable_not_movable :
  ∀ (Options : RealtimeObjectOptions) (threadType : ThreadType),
    ScopedAccess_special Options threadType CopyConstructor = Deleted ∧
    ScopedAccess_special Options threadType MoveConstructor = Deleted ∧
    ScopedAccess_special Options threadType CopyAssignment = Deleted ∧
    ScopedAccess_special Options threadType MoveAssignment = Deleted ∧
    (∀ (u : GuardUse) (m : SpecialMember),
        selected_member u = Some m → compiles Options threadType u = false) ∧
    (∀ c : ExprCategory,
        c ≠ Prvalue → compiles Options threadType (ConstructFrom c) = false) ∧
    (∀ c : ExprCategory, compiles Options threadType (AssignFrom c) = false) ∧
    (∀ u : GuardUse,
        compiles Options threadType u = true →
        u = ConstructFrom Prvalue ∧ selected_member u = None).
Proof.
  intros Options threadType. split_and!; try reflexivity.
  - intros [[]|[]] m; simpl; try discriminate; intros [= <-]; reflexivity.
  - intros [] H; try reflexivity. by destruct H.
  - intros []; reflexivity.
  - intros [[]|[]]; simpl; try discriminate. done.
Qed.

Lemma ScopedAccess_not_copyable_not_movable_witness :
  compiles realtimeMutatable realtime (ConstructFrom Xvalue) = false ∧
  compiles nonRealtimeMutatable nonRealtime (AssignFrom Prvalue) = false.
Proof.
  split.
  - refine (proj1 (proj2 (proj2 (proj2 (proj2 (proj2
              (ScopedAccess_not_copyable_not_movable realtimeMutatable realtime))))))
            Xvalue _).
    discriminate.
  - refine (proj1 (proj2 (proj2 (proj2 (proj2
              (ScopedAccess_not_copyable_not_movable nonRealtimeMutatable nonRealtime)))))
            (AssignFrom Prvalue) MoveAssignment _).
    reflexivity.
Defined.

(** ** Exceptions at the boundary of the member functions *)

Lemma noexcept_never_propagates {S E A} (body : Call S E A) (s : S) :
  propagates (noexcept body s) = false.
Proof. unfold noexcept. destruct (body s) as [[a|e|] s']; reflexivity. Qed.

Lemma realtimeReplace_inv {S E R Args} Options (mImpl : ImplOps S E R Args) O args c :
  realtimeReplace Options mImpl O args = Some c →
  default Options O = realtimeMutatable ∧
  ∃ body, impl_realtimeReplace mImpl = Some body ∧ c = noexcept (body args).
Proof.
  unfold realtimeReplace. simpl. unfold enable_if_t.
  case_bool_decide as HO; [|discriminate].
  destruct (impl_realtimeReplace mImpl) as [body|]; [|discriminate].
  intros [= <-]. split; [exact HO|]. exists body. split; reflexivity.
Qed.

Lemma nonRealtimeReplace_inv {S E R Args} Options (mImpl : ImplOps S E R Args) O args c :
  nonRealtimeReplace Options mImpl O args = Some c →
  default Options O = nonRealtimeMutatable ∧
  ∃ body, impl_nonRealtimeReplace mImpl = Some body ∧ c = body args.
Proof.
  unfold nonRealtimeReplace. simpl. unfold enable_if_t.
  case_bool_decide as HO; [|discriminate].
  destruct (impl_nonRealtimeReplace mImpl) as [body|]; [|discriminate].
  intros [= <-]. split; [exact HO|]. exists body. split; reflexivity.
Qed.

(** C10.  The three real-time members are declared [noexcept] and the three
    non-real-time members are not.  Whatever the implementation does, no
    exception leaves [realtimeAcquire], [realtimeRelease] or
    [realtimeReplace]; the non-real-time members hand on the outcome of the
    implementation unchanged, an exception included, and there are
    implementations for which they do throw. *)
Theorem realtime_side_noexcept :
  (∀ m, declared_noexcept m = bool_decide (side_of m = realtime)) ∧
  (∀ (S E R Args : Type) (Options : RealtimeObjectOptions)
     (mImpl : ImplOps S E R Args) (s : S),
      propagates (realtimeAcquire mImpl s) = false ∧
      propagates (realtimeRelease mImpl s) = false ∧
      (∀ O args c, realtimeReplace Options mImpl O args = Some c →
                   propagates (c s) = false) ∧
      nonRealtimeAcquire mImpl s = impl_nonRealtimeAcquire mImpl s ∧
      nonRealtimeRelease mImpl s = impl_nonRealtimeRelease mImpl s ∧
      (∀ O args c, nonRealtimeReplace Options mImpl O args = Some c →
                   ∃ body, impl_nonRealtimeReplace mImpl = Some body ∧
                           c s = body args s)) ∧
  (∃ mImpl : ImplOps unit unit unit unit,
      propagates (nonRealtimeAcquire mImpl ()) = true ∧
      propagates (nonRealtimeRelease mImpl ()) = true ∧
      ∃ c, nonRealtimeReplace nonRealtimeMutatable mImpl None () = Some c ∧
           propagates (c ()) = true).
Proof.
  split_and!.
  - intros []; reflexivity.
  - intros S E R Args Options mImpl s. split_and!.
    + apply noexcept_never_propagates.
    + apply noexcept_never_propagates.
    + intros O args c Hc.
      apply realtimeReplace_inv in Hc as (_ & body & _ & ->).
      apply noexcept_never_propagates.
    + reflexivity.
    + reflexivity.
    + intros O args c Hc.
      apply nonRealtimeReplace_inv in Hc as (_ & body & Hb & ->).
      exists body. split; [exact Hb | reflexivity].
  - exists (mkImplOps (throw ()) (throw ()) (Some (λ _, throw ()))
                      (throw ()) (throw ()) (Some (λ _, throw ()))).
    split_and!; try reflexivity.
    eexists. split; reflexivity.
Qed.

(** ** Acquire and release under a guard *)

Lemma calls_app m (a b : list Event) : calls m (a ++ b) = calls m a + calls m b.
Proof. unfold calls. by rewrite filter_app, length_app. Qed.

Lemma ScopedAccess_ctor_acquire threadType :
  ScopedAccess_ctor threadType = [acquire_member threadType].
Proof. destruct threadType; reflexivity. Qed.

Lemma ScopedAccess_dtor_release threadType :
  ScopedAccess_dtor threadType = [release_member threadType].
Proof. destruct threadType; reflexivity. Qed.

(** A guarded block whose body does not end the program. *)
Lemma exec_SScoped u h threadType body :
  is_terminating (exec u h body).2 = false →
  exec u h (SScoped threadType body) =
  (Called (acquire_member threadType) :: (exec u h body).1
     ++ [Called (release_member threadType)], (exec u h body).2).
Proof.
  cbn [exec]. rewrite ScopedAccess_ctor_acquire, ScopedAccess_dtor_release.
  destruct (exec u h body) as [tb [| | |k]]; simpl; try reflexivity.
  discriminate.
Qed.

(** The trace of a guarded block, whatever its end: the acquire, the body,
    and then the release or nothing. *)
Lemma exec_SScoped_trace u h threadType body :
  (exec u h (SScoped threadType body)).1
  = Called (acquire_member threadType) :: (exec u h body).1
      ++ [Called (release_member threadType)]
  ∨ (exec u h (SScoped threadType body)).1
    = Called (acquire_member threadType) :: (exec u h body).1.
Proof.
  cbn [exec]. rewrite ScopedAccess_ctor_acquire, ScopedAccess_dtor_release.
  destruct (exec u h body) as [tb [| | |[|k]]]; simpl; auto.
Qed.

Lemma exec_SScoped_exit u h threadType body :
  is_terminating (exec u h (SScoped threadType body)).2
  = is_terminating (exec u h body).2.
Proof.
  cbn [exec]. destruct (exec u h body) as [tb [| | |[|k]]]; reflexivity.
Qed.

Lemma guard_calls side threadType :
  calls (acquire_member side) [Called (acquire_member threadType)]
  = calls (release_member side) [Called (release_member threadType)] ∧
  calls (acquire_member side) [Called (release_member threadType)] = 0 ∧
  calls (release_member side) [Called (acquire_member threadType)] = 0.
Proof. destruct side, threadType; vm_compute; done. Qed.

(** In every run that does not end the program, on every exit, each side's
    acquire is called as often as its release. *)
Lemma exec_balanced (u : nat) (s : Stmt) (side : ThreadType) :
  ∀ h, is_terminating (exec u h s).2 = false →
       calls (acquire_member side) (exec u h s).1
       = calls (release_member side) (exec u h s).1.
Proof.
  induction s as [n| | |a IHa b IHb|a IHa hd IHh|body IH|threadType body IH];
    intros h.
  - intros _. destruct side; reflexivity.
  - reflexivity.
  - reflexivity.
  - cbn [exec]. specialize (IHa h). specialize (IHb h).
    destruct (exec u h a) as [ta []]; simpl in *; try (intros; by apply IHa).
    destruct (exec u h b) as [tb xb]; simpl in *. intros Hx.
    rewrite !calls_app, IHa, IHb; done.
  - cbn [exec]. specialize (IHa true). specialize (IHh h).
    destruct (exec u true a) as [ta []]; simpl in *; try (intros; by apply IHa).
    destruct (exec u h hd) as [th xh]; simpl in *. intros Hx.
    rewrite !calls_app, IHa, IHh; done.
  - cbn [exec]. specialize (IH false).
    destruct (exec u false body) as [tb []]; simpl in *;
      first [discriminate | intros _; by apply IH].
  - intros Hx. rewrite exec_SScoped_exit in Hx.
    rewrite (exec_SScoped _ _ _ _ Hx). simpl.
    change (Called ?m :: ?l) with ([Called m] ++ l).
    rewrite !calls_app.
    destruct (guard_calls side threadType) as (H1 & H2 & H3).
    rewrite H1, H2, H3, (IH h Hx). lia.
Qed.

Lemma calls_take_le m k (tr : list Event) : calls m (take k tr) ≤ calls m tr.
Proof.
  rewrite <- (take_drop k tr) at 2. rewrite calls_app. lia.
Qed.

Lemma bracketed_app side (a b : list Event) :
  (∀ k, calls (release_member side) (take k a) ≤ calls (acquire_member side) (take k a)) →
  (∀ k, calls (release_member side) (take k b) ≤ calls (acquire_member side) (take k b)) →
  ∀ k, calls (release_member side) (take k (a ++ b))
       ≤ calls (acquire_member side) (take k (a ++ b)).
Proof.
  intros Ha Hb k. rewrite take_app, !calls_app.
  specialize (Ha k). specialize (Hb (k - length a)). lia.
Qed.

Lemma bracketed_guard side threadType (tb : list Event) (closed : bool) :
  (∀ k, calls (release_member side) (take k tb) ≤ calls (acquire_member side) (take k tb)) →
  ∀ k, calls (release_member side)
         (take k (Called (acquire_member threadType) :: tb
                    ++ if closed then [Called (release_member threadType)] else []))
       ≤ calls (acquire_member side)
           (take k (Called (acquire_member threadType) :: tb
                      ++ if closed then [Called (release_member threadType)] else [])).
Proof.
  intros Hb k.
  destruct (guard_calls side threadType) as (H1 & H2 & H3).
  destruct k as [|k]; [simpl; reflexivity|].
  simpl. change (Called ?m :: ?l) with ([Called m] ++ l).
  rewrite take_app, !calls_app, H3.
  pose proof (Hb k) as Hk. pose proof (Hb (length tb)) as Hall.
  rewrite firstn_all in Hall.
  destruct (decide (k ≤ length tb)) as [Hle|Hgt].
  - replace (k - length tb) with 0 by lia. rewrite take_0.
    unfold calls at 2 5. simpl. lia.
  - rewrite (take_ge tb) by lia.
    pose proof (calls_take_le (release_member side) (k - length tb)
                  (if closed then [Called (release_member threadType)] else [])) as Hr.
    destruct closed.
    + lia.
    + unfold calls at 2 in Hr. simpl in Hr. lia.
Qed.

(** At no moment of a run, whatever its end, has a side released more often
    than it acquired. *)
Lemma exec_bracketed (u : nat) (s : Stmt) (side : ThreadType) :
  ∀ h k, calls (release_member side) (take k (exec u h s).1)
         ≤ calls (acquire_member side) (take k (exec u h s).1).
Proof.
  induction s as [n| | |a IHa b IHb|a IHa hd IHh|body IH|threadType body IH];
    intros h k.
  - destruct k as [|k], side; simpl; try rewrite take_nil; vm_compute; lia.
  - simpl. rewrite take_nil. reflexivity.
  - simpl. rewrite take_nil. reflexivity.
  - cbn [exec]. specialize (IHa h). specialize (IHb h).
    destruct (exec u h a) as [ta []]; simpl in *; try apply IHa.
    destruct (exec u h b) as [tb xb]; simpl in *. by apply bracketed_app.
  - cbn [exec]. specialize (IHa true). specialize (IHh h).
    destruct (exec u true a) as [ta []]; simpl in *; try apply IHa.
    destruct (exec u h hd) as [th xh]; simpl in *. by apply bracketed_app.
  - cbn [exec]. specialize (IH false).
    destruct (exec u false body) as [tb x]; simpl in *. apply IH.
  - destruct (exec_SScoped_trace u h threadType body) as [-> | ->].
    + apply (bracketed_guard side threadType _ true). apply IH.
    + rewrite <- (app_nil_r (exec u h body).1).
      apply (bracketed_guard side threadType _ false). apply IH.
Qed.




(** * Properties of the slot pool *)

Section PoolFacts.
Context {T : Type}.
Implicit Types (p : Pool T) (s : Slot T) (i c : nat) (t : Tag).

Lemma tag_at_Some p i t :
  tag_at p i = Some t ↔ ∃ s, slots p !! i = Some s ∧ tag s = t.
Proof.
  unfold tag_at. destruct (slots p !! i) as [s|]; simpl; split.
  - intros [= <-]. eauto.
  - intros (s' & [= <-] & <-). reflexivity.
  - discriminate.
  - intros (s' & [=] & _).
Qed.

Lemma tag_at_lt p i t : tag_at p i = Some t → i < capacity p.
Proof.
  intros (s & Hs & _)%tag_at_Some. unfold capacity. by eapply lookup_lt_Some.
Qed.

(** Changing one slot, with the Current slot staying what it is. *)
Lemma wf_alter p i (g : Slot T → Slot T) :
  wf p →
  (∀ s, slots p !! i = Some s → tag_ok (current p) i (tag (g s))) →
  wf (mkPool (alter g i (slots p)) (current p)).
Proof.
  intros [Htags Hcur] Hg. split; simpl.
  - intros j s' Hj. destruct (decide (i = j)) as [<-|Hne].
    + rewrite list_lookup_alter_eq in Hj.
      destruct (slots p !! i) as [s|] eqn:Hs; simplify_eq/=. by apply Hg.
    + rewrite list_lookup_alter_ne in Hj by done. by apply Htags.
  - intros c Hc. unfold capacity. simpl. rewrite length_alter. by apply Hcur.
Qed.

Lemma wf_construct p i (v : T) : wf p → wf (construct i v p).
Proof.
  intros Hwf. apply wf_alter; [done|].
  intros s Hs. simpl. destruct Hwf as [Htags _]. by apply Htags.
Qed.

Lemma wf_beginRead p c p' : wf p → beginRead p = Some (c, p') → wf p'.
Proof.
  intros Hwf. unfold beginRead.
  destruct (current p) as [c0|] eqn:Hc; [|discriminate].
  intros [= <- <-]. rewrite <- Hc. apply wf_alter; [done|].
  intros s _. simpl. lia.
Qed.

Lemma wf_endRead p i p' : wf p → endRead i p = inr p' → wf p'.
Proof.
  intros Hwf. unfold endRead.
  destruct (tag_at p i) as [[| |n]|] eqn:Ht; try discriminate.
  intros [= <-]. apply wf_alter; [done|].
  intros s Hs. simpl.
  destruct (n - 1) as [|n'] eqn:Hn; simpl; [|lia].
  case_decide; done.
Qed.

Lemma wf_publish p i : wf p → tag_at p i = Some Free → wf (publish i p).
Proof.
  intros [Htags Hcur] Hi.
  pose proof (tag_at_lt _ _ _ Hi) as Hlt.
  apply tag_at_Some in Hi as (si & Hsi & Hti).
  assert (Hnc : current p ≠ Some i).
  { specialize (Htags i si Hsi). rewrite Hti in Htags. exact Htags. }
  unfold publish. split; simpl.
  - intros j s' Hj. destruct (decide (i = j)) as [<-|Hne].
    + rewrite list_lookup_alter_eq in Hj.
      apply fmap_Some in Hj as (s & _ & ->). reflexivity.
    + rewrite list_lookup_alter_ne in Hj by done.
      destruct (current p) as [c|] eqn:Hc.
      * destruct (decide (c = j)) as [<-|Hcj].
        -- rewrite list_lookup_alter_eq in Hj.
           destruct (slots p !! c) as [s|] eqn:Hs; simplify_eq/=.
           specialize (Htags c s Hs). unfold demote.
           destruct (tag s) as [| |n]; simpl in *; try congruence.
           destruct n; simpl; [congruence | lia].
        -- rewrite list_lookup_alter_ne in Hj by done.
           specialize (Htags j s' Hj).
           destruct (tag s'); simpl in *; congruence.
      * specialize (Htags j s' Hj).
        destruct (tag s'); simpl in *; congruence.
  - intros c [= <-]. unfold capacity in *. simpl. rewrite length_alter.
    destruct (current p); [rewrite length_alter|]; done.
Qed.

(** Every step leaves the pool well formed and its capacity unchanged. *)
Lemma step_wf (op : Op T) p p' : wf p → step op p = Some p' → wf p'.
Proof.
  intros Hwf. destruct op as [|i v|i| |i]; simpl.
  - by intros [= <-].
  - case_decide; [|discriminate]. intros [= <-]. by apply wf_construct.
  - case_decide; [|discriminate]. intros [= <-]. by apply wf_publish.
  - destruct (beginRead p) as [[c q]|] eqn:Hb; [|discriminate].
    simpl. intros [= <-]. by eapply wf_beginRead.
  - destruct (endRead i p) as [e|q] eqn:He; [discriminate|].
    intros [= <-]. by eapply wf_endRead.
Qed.

Lemma step_capacity (op : Op T) p p' : step op p = Some p' → capacity p' = capacity p.
Proof.
  unfold capacity. destruct op as [|i v|i| |i]; simpl.
  - by intros [= <-].
  - case_decide; [|discriminate]. intros [= <-]. simpl. by rewrite length_alter.
  - case_decide; [|discriminate]. intros [= <-]. simpl. rewrite length_alter.
    destruct (current p); [rewrite length_alter|]; done.
  - unfold beginRead. destruct (current p); [|discriminate].
    simpl. intros [= <-]. simpl. by rewrite length_alter.
  - unfold endRead. destruct (tag_at p i) as [[| |n]|]; try discriminate.
    intros [= <-]. simpl. by rewrite length_alter.
Qed.

Lemma run_capacity (ops : list (Op T)) p p' :
  run ops p = Some p' → capacity p' = capacity p.
Proof.
  revert p. induction ops as [|op ops IH]; intros p; simpl.
  - by intros [= <-].
  - destruct (step op p) as [q|] eqn:Hq; [|discriminate].
    intros Hr. rewrite (IH _ Hr). by eapply step_capacity.
Qed.

End PoolFacts.

(** ** Counting *)

Section Counting.
Context {A : Type} (P : A → Prop) `{Pdec : !∀ x, Decision (P x)}.

Lemma filter_none (l : list A) : (∀ x, x ∈ l → ¬ P x) → filter P l = [].
Proof.
  induction l as [|a l IH]; intros H; [reflexivity|].
  rewrite filter_cons_False by (apply H; left).
  apply IH. intros x Hx. apply H. by right.
Qed.

Lemma length_filter_unique (l : list A) :
  (∀ i j x y, l !! i = Some x → l !! j = Some y → P x → P y → i = j) →
  length (filter P l) ≤ 1.
Proof.
  induction l as [|a l IH]; intros H; [simpl; lia|].
  destruct (decide (P a)) as [Ha|Ha].
  - rewrite filter_cons_True by done.
    rewrite filter_none; [simpl; lia|].
    intros y [j Hj]%list_elem_of_lookup Hy.
    specialize (H 0 (S j) a y eq_refl Hj Ha Hy). discriminate.
  - rewrite filter_cons_False by done. apply IH.
    intros i j x y Hi Hj Hx Hy.
    specialize (H (S i) (S j) x y Hi Hj Hx Hy). lia.
Qed.

Lemma length_filter_pos (l : list A) i x :
  l !! i = Some x → P x → 1 ≤ length (filter P l).
Proof.
  intros Hi Hx.
  assert (Hin : x ∈ filter P l).
  { apply list_elem_of_filter. split; [done|]. by eapply list_elem_of_lookup_2. }
  destruct (filter P l); [by apply not_elem_of_nil in Hin | simpl; lia].
Qed.

End Counting.

Section PoolCounting.
Context {T : Type}.
Implicit Types (p : Pool T) (s : Slot T) (i c : nat) (t : Tag).

(** In a well-formed pool the only slot that can be tagged [Current] is the
    one that holds the most recently published value, and it is tagged so
    exactly while it has no readers. *)
Lemma count_tagged_Current p :
  wf p →
  count_tagged Current p =
  match current p with
  | Some c => if decide (tag_at p c = Some Current) then 1 else 0
  | None => 0
  end.
Proof.
  intros [Htags Hcur]. unfold count_tagged.
  assert (Honly : ∀ i s, slots p !! i = Some s → tag s = Current → current p = Some i).
  { intros i s Hs Ht. specialize (Htags i s Hs). by rewrite Ht in Htags. }
  destruct (current p) as [c|] eqn:Hc.
  - case_decide as Hd.
    + apply tag_at_Some in Hd as (s & Hs & Ht).
      apply Nat.le_antisymm.
      * apply length_filter_unique. intros i j x y Hi Hj Hx Hy.
        pose proof (Honly i x Hi Hx). pose proof (Honly j y Hj Hy). congruence.
      * by eapply length_filter_pos.
    + rewrite filter_none; [reflexivity|].
      intros s [i Hi]%list_elem_of_lookup Ht. apply Hd.
      pose proof (Honly i s Hi Ht) as [= ->].
      apply tag_at_Some. eauto.
  - rewrite filter_none; [reflexivity|].
    intros s [i Hi]%list_elem_of_lookup Ht.
    by pose proof (Honly i s Hi Ht).
Qed.

(** Steps other than a publication leave the Current slot where it is. *)
Lemma step_current (op : Op T) p p' :
  is_publish op = false → step op p = Some p' → current p' = current p.
Proof.
  destruct op as [|i v|i| |i]; simpl; try discriminate; intros _.
  - by intros [= <-].
  - case_decide; [|discriminate]. by intros [= <-].
  - unfold beginRead. destruct (current p); [|discriminate]. by intros [= <-].
  - unfold endRead. destruct (tag_at p i) as [[| |n]|]; try discriminate.
    by intros [= <-].
Qed.

Lemma step_current_is_Some (op : Op T) p p' :
  is_Some (current p) → step op p = Some p' → is_Some (current p').
Proof.
  intros Hc Hs. destruct (is_publish op) eqn:Hop.
  - destruct op; try discriminate. simpl in Hs.
    case_decide; [|discriminate]. injection Hs as <-. simpl. eauto.
  - by rewrite (step_current _ _ _ Hop Hs).
Qed.

Lemma run_current_is_Some (ops : list (Op T)) p p' :
  is_Some (current p) → run ops p = Some p' → is_Some (current p').
Proof.
  revert p. induction ops as [|op ops IH]; intros p Hc; simpl.
  - by intros [= <-].
  - destruct (step op p) as [q|] eqn:Hq; [|discriminate].
    apply IH. by eapply step_current_is_Some.
Qed.

Lemma run_unpublished (ops : list (Op T)) p p' :
  published ops = false → run ops p = Some p' → current p' = current p.
Proof.
  revert p. induction ops as [|op ops IH]; intros p; simpl.
  - by intros _ [= <-].
  - intros [Hop Hops]%orb_false_iff.
    destruct (step op p) as [q|] eqn:Hq; [|discriminate].
    intros Hr. rewrite (IH _ Hops Hr). by eapply step_current.
Qed.

Lemma run_published (ops : list (Op T)) p p' :
  published ops = true → run ops p = Some p' → is_Some (current p').
Proof.
  revert p. induction ops as [|op ops IH]; intros p; simpl; [discriminate|].
  destruct (step op p) as [q|] eqn:Hq; [|discriminate].
  destruct (is_publish op) eqn:Hop; simpl.
  - intros _. apply run_current_is_Some.
    destruct op; try discriminate. simpl in Hq.
    case_decide; [|discriminate]. injection Hq as <-. simpl. eauto.
  - apply IH.
Qed.

(** ** [findFreeSlot] *)

Lemma findFreeSlot_inr p i : findFreeSlot p = inr i → tag_at p i = Some Free.
Proof.
  unfold findFreeSlot.
  destruct (list_find _ (slots p)) as [[j s]|] eqn:Hf; [|discriminate].
  intros [= <-]. apply list_find_Some in Hf as (Hs & Ht & _).
  apply tag_at_Some. eauto.
Qed.

Lemma findFreeSlot_inl p e :
  findFreeSlot p = inl e → e = NoFreeSlot ∧ ∀ i, tag_at p i ≠ Some Free.
Proof.
  unfold findFreeSlot.
  destruct (list_find _ (slots p)) as [[j s]|] eqn:Hf; [discriminate|].
  intros [= <-]. split; [reflexivity|].
  intros i (s & Hs & Ht)%tag_at_Some.
  apply list_find_None in Hf. rewrite Forall_forall in Hf.
  apply (Hf s); [by eapply list_elem_of_lookup_2 | done].
Qed.

Lemma findFreeSlot_some p i :
  tag_at p i = Some Free → ∃ j, findFreeSlot p = inr j.
Proof.
  intros Hi. destruct (findFreeSlot p) as [e|j] eqn:Hf; [|eauto].
  apply findFreeSlot_inl in Hf as [_ Hnone]. by destruct (Hnone i).
Qed.

Lemma nonfree_current_or_draining p i s :
  wf p → slots p !! i = Some s → tag s ≠ Free →
  current p = Some i ∨ draining p i.
Proof.
  intros [Htags _] Hs Hne. specialize (Htags i s Hs).
  destruct (decide (current p = Some i)) as [|Hc]; [by left|right].
  split; [done|]. destruct (tag s) as [| |n] eqn:Ht; simpl in *; [done..|].
  exists n. apply tag_at_Some. eauto.
Qed.

(** With room for three slots and at most one slot draining, some slot is
    [Free]. *)
Lemma sizing_gives_free p :
  wf p → sizing_invariant p → ∃ i, tag_at p i = Some Free.
Proof.
  intros Hwf [Hcap Hone]. unfold capacity in Hcap.
  destruct (lookup_lt_is_Some_2 (slots p) 0) as [s0 H0]; [lia|].
  destruct (lookup_lt_is_Some_2 (slots p) 1) as [s1 H1]; [lia|].
  destruct (lookup_lt_is_Some_2 (slots p) 2) as [s2 H2]; [lia|].
  destruct (decide (tag s0 = Free)) as [F0|F0];
    [exists 0; apply tag_at_Some; eauto|].
  destruct (decide (tag s1 = Free)) as [F1|F1];
    [exists 1; apply tag_at_Some; eauto|].
  destruct (decide (tag s2 = Free)) as [F2|F2];
    [exists 2; apply tag_at_Some; eauto|].
  exfalso.
  destruct (nonfree_current_or_draining p 0 s0 Hwf H0 F0) as [C0|D0];
  destruct (nonfree_current_or_draining p 1 s1 Hwf H1 F1) as [C1|D1];
  destruct (nonfree_current_or_draining p 2 s2 Hwf H2 F2) as [C2|D2];
  try congruence;
  try (specialize (Hone 0 1 D0 D1); lia);
  try (specialize (Hone 0 2 D0 D2); lia);
  try (specialize (Hone 1 2 D1 D2); lia).
Qed.

End PoolCounting.

(** ** The operations of the Exchange Protocol on the pool *)

Section ExchangeFacts.
Context {T E Args : Type} (ctor : Args → E + T).
Implicit Types (x : Exchange T) (p : Pool T).

Lemma tag_at_construct p i j (v : T) : tag_at (construct i v p) j = tag_at p j.
Proof.
  unfold tag_at, construct. simpl.
  destruct (decide (i = j)) as [<-|Hne].
  - rewrite list_lookup_alter_eq. by destruct (slots p !! i).
  - by rewrite list_lookup_alter_ne.
Qed.

(** A replace whose constructor fails changes nothing. *)
Lemma replace_ctor_fails args e x i :
  findFreeSlot (pool x) = inr i → ctor args = inl e →
  replace ctor args x = (Thrown e, x).
Proof. intros Hf Hc. unfold replace. by rewrite Hf, Hc. Qed.

(** A replace that returns has published the constructed value. *)
Lemma replace_returns args x x' :
  replace ctor args x = (Returned (), x') →
  ∃ i v, findFreeSlot (pool x) = inr i ∧ ctor args = inr v ∧
         pool x' = publish i (construct i v (pool x)).
Proof.
  unfold replace.
  destruct (findFreeSlot (pool x)) as [e|i]; [discriminate|].
  destruct (ctor args) as [e|v]; [discriminate|].
  intros [= <-]. eauto.
Qed.

Lemma lookup_value_alter (l : list (Slot T)) i j (g : Slot T → Slot T) :
  (∀ s, value (g s) = value s) →
  value <$> alter g j l !! i = value <$> l !! i.
Proof.
  intros Hg. destruct (decide (j = i)) as [<-|Hne].
  - rewrite list_lookup_alter_eq. destruct (l !! j); simpl; [|done].
    by rewrite Hg.
  - by rewrite list_lookup_alter_ne.
Qed.

Lemma value_at_alter p i j (g : Slot T → Slot T) cur :
  (∀ s, value (g s) = value s) →
  value_at (mkPool (alter g j (slots p)) cur) i = value_at p i.
Proof. intros Hg. unfold value_at. simpl. by apply lookup_value_alter. Qed.

Lemma publish_construct_value p i (v : T) :
  tag_at p i = Some Free →
  current (publish i (construct i v p)) = Some i ∧
  value_at (publish i (construct i v p)) i = Some v.
Proof.
  intros (s & Hs & _)%tag_at_Some. split; [reflexivity|].
  unfold publish, value_at. simpl.
  rewrite lookup_value_alter by done.
  destruct (current p) as [c|]; [rewrite lookup_value_alter by done|];
    by rewrite list_lookup_alter_eq, Hs.
Qed.

(** What a step that is not a publication leaves in place: the Current slot
    and the value it holds. *)
Lemma step_keeps_published (op : Op T) p p' c (v : T) :
  is_publish op = false → wf p → current p = Some c → value_at p c = Some v →
  step op p = Some p' → value_at p' c = Some v.
Proof.
  intros Hop Hwf Hc Hv.
  destruct op as [|i w|i| |i]; simpl; try discriminate.
  - by intros [= <-].
  - case_decide as Hfree; [|discriminate]. intros [= <-].
    assert (i ≠ c) as Hne.
    { intros ->. apply tag_at_Some in Hfree as (s & Hs & Ht).
      destruct Hwf as [Htags _]. specialize (Htags c s Hs).
      rewrite Ht in Htags. simpl in Htags. congruence. }
    unfold value_at, construct. simpl. by rewrite list_lookup_alter_ne.
  - unfold beginRead. rewrite Hc. simpl. intros [= <-].
    by rewrite value_at_alter.
  - unfold endRead. destruct (tag_at p i) as [[| |n]|]; try discriminate.
    intros [= <-]. by rewrite value_at_alter.
Qed.

Lemma run_keeps_published (ops : list (Op T)) p p' c (v : T) :
  published ops = false → wf p → current p = Some c → value_at p c = Some v →
  run ops p = Some p' → current p' = Some c ∧ value_at p' c = Some v.
Proof.
  revert p. induction ops as [|op ops IH]; intros p; simpl.
  - intros _ _ Hc Hv [= <-]. done.
  - intros [Hop Hops]%orb_false_iff Hwf Hc Hv.
    destruct (step op p) as [q|] eqn:Hq; [|discriminate].
    apply (IH q Hops).
    + by eapply step_wf.
    + by rewrite (step_current _ _ _ Hop Hq).
    + by eapply step_keeps_published.
Qed.

(** An acquire hands out the Current slot; the value there is unchanged. *)
Lemma acquire_current side x c (v : T) :
  current (pool x) = Some c → value_at (pool x) c = Some v →
  ∃ x', acquire (E:=E) side x = (Returned c, x') ∧ deref c x' = Some v.
Proof.
  intros Hc Hv. unfold acquire, beginRead. rewrite Hc.
  eexists. split; [reflexivity|].
  unfold deref. destruct side; simpl; by rewrite value_at_alter.
Qed.

End ExchangeFacts.

(** ** Tags and the readers counted from the history *)

Section ExactFacts.
Context {T : Type}.
Implicit Types (p : Pool T) (s : Slot T) (i c n : nat) (t : Tag) (g : nat → nat).

Lemma expected_tag_Free cur i n :
  expected_tag cur i n = Free ↔ n = 0 ∧ cur ≠ Some i.
Proof.
  unfold expected_tag. destruct n as [|n]; [case_decide|]; split;
    try done; try (intros [? ?]; done).
Qed.

Lemma expected_tag_Current cur i n :
  expected_tag cur i n = Current ↔ n = 0 ∧ cur = Some i.
Proof.
  unfold expected_tag. destruct n as [|n]; [case_decide|]; split;
    try done; try (intros [? ?]; done).
Qed.

Lemma expected_tag_Reading cur i n m :
  expected_tag cur i n = Reading m ↔ n = m ∧ 1 ≤ m.
Proof.
  unfold expected_tag. destruct n as [|n]; [case_decide|]; split;
    try done; try (intros [? ?]; lia).
  - intros [= <-]. lia.
  - intros [<- _]. reflexivity.
Qed.

Lemma expected_tag_readers cur i n : readers (expected_tag cur i n) = n.
Proof. unfold expected_tag. destruct n; [case_decide|]; reflexivity. Qed.

Lemma expected_tag_other cur cur' i n :
  cur ≠ Some i → cur' ≠ Some i → expected_tag cur' i n = expected_tag cur i n.
Proof. intros H1 H2. unfold expected_tag. destruct n; [|done]. by repeat case_decide. Qed.

Lemma exact_tag_at p g i :
  exact p g → i < capacity p →
  tag_at p i = Some (expected_tag (current p) i (g i)).
Proof.
  intros [Htags _] Hlt. unfold capacity in Hlt.
  apply lookup_lt_is_Some_2 in Hlt as [s Hs].
  unfold tag_at. rewrite Hs. simpl. f_equal. by apply Htags.
Qed.

Lemma exact_tag_at_Some p g i t :
  exact p g → tag_at p i = Some t → t = expected_tag (current p) i (g i).
Proof.
  intros Hex Ht. pose proof (tag_at_lt _ _ _ Ht) as Hlt.
  rewrite (exact_tag_at p g i Hex Hlt) in Ht. congruence.
Qed.

Lemma exact_wf p g : exact p g → wf p.
Proof.
  intros [Htags Hcur]. split; [|exact Hcur].
  intros i s Hs. rewrite (Htags i s Hs). unfold expected_tag, tag_ok.
  destruct (g i); [case_decide; done | lia].
Qed.

Lemma exact_empty_pool N (d : T) : exact (empty_pool N d) (λ _, 0).
Proof.
  split; simpl; [|discriminate].
  intros i s Hs. apply lookup_replicate in Hs as [-> _]. reflexivity.
Qed.

(** Changing one slot, with the slot published last staying what it is. *)
Lemma exact_alter p g g' i (f : Slot T → Slot T) :
  exact p g →
  (∀ s, slots p !! i = Some s → tag (f s) = expected_tag (current p) i (g' i)) →
  (∀ j, j ≠ i → g' j = g j) →
  exact (mkPool (alter f i (slots p)) (current p)) g'.
Proof.
  intros [Htags Hcur] Hf Hg. split; simpl.
  - intros j s' Hj. destruct (decide (i = j)) as [<-|Hne].
    + rewrite list_lookup_alter_eq in Hj.
      destruct (slots p !! i) as [s|] eqn:Hs; simplify_eq/=. by apply Hf.
    + rewrite list_lookup_alter_ne in Hj by done.
      rewrite Hg by done. by apply Htags.
  - intros c Hc. unfold capacity. simpl. rewrite length_alter. by apply Hcur.
Qed.

Lemma exact_construct p g i (v : T) : exact p g → exact (construct i v p) g.
Proof.
  intros Hex. apply (exact_alter p g); [done| |done].
  intros s Hs. simpl. destruct Hex as [Htags _]. by apply Htags.
Qed.

Lemma exact_beginRead p g c p' :
  exact p g → beginRead p = Some (c, p') →
  current p = Some c ∧ exact p' (bump c g).
Proof.
  intros Hex. unfold beginRead.
  destruct (current p) as [c0|] eqn:Hc; [|discriminate].
  intros [= <- <-]. split; [reflexivity|]. rewrite <- Hc.
  apply (exact_alter p g); [done| |].
  - intros s Hs. simpl. destruct Hex as [Htags _].
    rewrite (Htags c0 s Hs), expected_tag_readers.
    unfold bump. rewrite decide_True by done. reflexivity.
  - intros j Hj. unfold bump. by rewrite decide_False.
Qed.

Lemma exact_endRead p g i p' :
  exact p g → endRead i p = inr p' → 1 ≤ g i ∧ exact p' (unbump i g).
Proof.
  intros Hex. unfold endRead.
  destruct (tag_at p i) as [[| |n]|] eqn:Ht; try discriminate.
  intros [= <-].
  pose proof (exact_tag_at_Some p g i _ Hex Ht) as Hn.
  symmetry in Hn. apply expected_tag_Reading in Hn as [Hgi Hn].
  split; [lia|].
  apply (exact_alter p g); [done| |].
  - intros s Hs. simpl. unfold unbump.
    destruct (decide (i = i)) as [_|Hii]; [|done].
    rewrite Hgi. replace (pred n) with (n - 1) by lia.
    unfold expected_tag. destruct (n - 1); reflexivity.
  - intros j Hj. unfold unbump. by rewrite decide_False.
Qed.

Lemma exact_publish p g i :
  exact p g → tag_at p i = Some Free → exact (publish i p) g.
Proof.
  intros Hex Hi. pose proof Hex as [Htags Hcur].
  pose proof (tag_at_lt _ _ _ Hi) as Hlt.
  pose proof (exact_tag_at_Some p g i _ Hex Hi) as Hfree.
  symmetry in Hfree. apply expected_tag_Free in Hfree as [Hgi Hnc].
  unfold publish. split; simpl.
  - intros j s' Hj. destruct (decide (i = j)) as [<-|Hne].
    + rewrite list_lookup_alter_eq in Hj.
      apply fmap_Some in Hj as (s & _ & ->). simpl.
      symmetry. apply expected_tag_Current. done.
    + rewrite list_lookup_alter_ne in Hj by done.
      assert (Hij : Some i ≠ Some j) by congruence.
      destruct (current p) as [c|] eqn:Hc.
      * destruct (decide (c = j)) as [<-|Hcj].
        -- rewrite list_lookup_alter_eq in Hj.
           destruct (slots p !! c) as [s|] eqn:Hs; simplify_eq/=.
           rewrite (Htags c s Hs). unfold demote.
           rewrite expected_tag_readers. unfold expected_tag.
           destruct (g c); [|reflexivity].
           by rewrite decide_False.
        -- rewrite list_lookup_alter_ne in Hj by done.
           rewrite (Htags j s' Hj). apply expected_tag_other; congruence.
      * rewrite (Htags j s' Hj). apply expected_tag_other; congruence.
  - intros c [= <-]. unfold capacity in *. simpl. rewrite length_alter.
    destruct (current p); [rewrite length_alter|]; done.
Qed.

Lemma step_last_published (op : Op T) p p' :
  step op p = Some p' → current p' = last_published_step (current p) op.
Proof.
  intros Hs. destruct (is_publish op) eqn:Hop.
  - destruct op; try discriminate. simpl in *.
    case_decide; [|discriminate]. by injection Hs as <-.
  - rewrite (step_current _ _ _ Hop Hs). by destruct op.
Qed.

(** Every step keeps the tags in line with the readers that the history
    counts, and the slot published last with the last publication. *)
Lemma exact_step (op : Op T) p p' g :
  exact p g → step op p = Some p' →
  exact p' (outstanding_step (current p) g op) ∧
  current p' = last_published_step (current p) op.
Proof.
  intros Hex Hs. split; [|by apply step_last_published].
  destruct op as [|i v|i| |i]; simpl in *.
  - by injection Hs as <-.
  - case_decide; [|discriminate]. injection Hs as <-. by apply exact_construct.
  - case_decide; [|discriminate]. injection Hs as <-. by apply exact_publish.
  - destruct (beginRead p) as [[c q]|] eqn:Hb; [|discriminate].
    simpl in Hs. injection Hs as <-.
    destruct (exact_beginRead _ _ _ _ Hex Hb) as [Hc Hq]. by rewrite Hc.
  - destruct (endRead i p) as [e|q] eqn:He; [discriminate|].
    injection Hs as <-. by destruct (exact_endRead _ _ _ _ Hex He) as [_ Hq].
Qed.

Lemma exact_run (ops : list (Op T)) p p' g :
  exact p g → run ops p = Some p' →
  exact p' (outstanding_from (current p) g ops) ∧
  current p' = last_published_from (current p) ops.
Proof.
  revert p g. induction ops as [|op ops IH]; intros p g Hex; simpl.
  - by intros [= <-].
  - destruct (step op p) as [q|] eqn:Hq; [|discriminate].
    destruct (exact_step _ _ _ _ Hex Hq) as [Hex' Hcur].
    intros Hr. rewrite <- Hcur. by apply IH.
Qed.

(** While a slot has unfinished reads, no step writes to it. *)
Lemma step_keeps_held (op : Op T) p p' g i (v : T) :
  exact p g → 1 ≤ g i → value_at p i = Some v →
  step op p = Some p' → value_at p' i = Some v.
Proof.
  intros Hex Hg Hv. destruct op as [|j w|j| |j]; simpl.
  - by intros [= <-].
  - case_decide as Hfree; [|discriminate]. intros [= <-].
    assert (j ≠ i) as Hne.
    { intros ->. pose proof (exact_tag_at_Some p g i _ Hex Hfree) as Hf.
      symmetry in Hf. apply expected_tag_Free in Hf as [Hz _]. lia. }
    unfold value_at, construct. simpl. by rewrite list_lookup_alter_ne.
  - case_decide; [|discriminate]. intros [= <-].
    unfold publish, value_at. simpl. unfold value_at in Hv.
    rewrite lookup_value_alter by done.
    destruct (current p); [rewrite lookup_value_alter by done|]; done.
  - unfold beginRead. destruct (current p); [|discriminate].
    simpl. intros [= <-]. by rewrite value_at_alter.
  - unfold endRead. destruct (tag_at p j) as [[| |n]|]; try discriminate.
    intros [= <-]. by rewrite value_at_alter.
Qed.

Lemma run_keeps_held (ops : list (Op T)) p p' g i (v : T) :
  exact p g → stays_held i (current p) g ops → value_at p i = Some v →
  run ops p = Some p' → value_at p' i = Some v.
Proof.
  revert p g. induction ops as [|op ops IH]; intros p g Hex Hheld Hv; simpl.
  - by intros [= <-].
  - destruct (step op p) as [q|] eqn:Hq; [|discriminate].
    simpl in Hheld. destruct Hheld as [Hg Hrest].
    destruct (exact_step _ _ _ _ Hex Hq) as [Hex' Hcur].
    apply (IH q _ Hex').
    + by rewrite Hcur.
    + exact (step_keeps_held op p q g i v Hex Hg Hv Hq).
Qed.

End ExactFacts.

Section ExactExchange.
Context {T E Args : Type} (ctor : Args → E + T).
Implicit Types (x : Exchange T) (g : nat → nat).

Lemma exact_acquire side x g :
  exact (pool x) g →
  exact (pool (acquire (E:=E) side x).2)
        (outstanding_step (current (pool x)) g (OpBeginRead : Op T)).
Proof.
  intros Hex. unfold acquire. simpl.
  destruct (beginRead (pool x)) as [[i q]|] eqn:Hb.
  - destruct (exact_beginRead _ _ _ _ Hex Hb) as [-> Hq]. by destruct side.
  - unfold beginRead in Hb. destruct (current (pool x)); [discriminate|done].
Qed.

Lemma exact_release side x g :
  exact (pool x) g →
  exact (pool (release (E:=E) side x).2)
        (match (release (E:=E) side x).1, held side x with
         | Returned _, Some i => unbump i g
         | _, _ => g
         end).
Proof.
  intros Hex. unfold release.
  destruct (held side x) as [i|]; [|done].
  destruct (endRead i (pool x)) as [e|q] eqn:He; [done|]. simpl.
  destruct (exact_endRead _ _ _ _ Hex He) as [_ Hq]. by destruct side.
Qed.

Lemma exact_replace args x g :
  exact (pool x) g → exact (pool (replace ctor args x).2) g.
Proof.
  intros Hex. unfold replace.
  destruct (findFreeSlot (pool x)) as [e|i] eqn:Hf; [done|].
  destruct (ctor args) as [e|v]; [done|]. simpl.
  apply exact_publish; [by apply exact_construct|].
  rewrite tag_at_construct. by apply findFreeSlot_inr.
Qed.

End ExactExchange.

(** * The claims about the pool *)

(** C9.  [findFreeSlot] returns the index of a slot tagged [Free], or fails
    with [NoFreeSlot], and it fails only when no slot is [Free].  In a
    well-formed pool that satisfies the sizing invariant it does not fail,
    and a replace on such a pool does not end in the fatal branch. *)
Theorem findFreeSlot_free_or_NoFreeSlot :
  ∀ (T : Type) (p : Pool T),
    (∀ i, findFreeSlot p = inr i → tag_at p i = Some Free) ∧
    (∀ e, findFreeSlot p = inl e → e = NoFreeSlot ∧ ∀ i, tag_at p i ≠ Some Free) ∧
    (wf p → sizing_invariant p →
       (∃ i, findFreeSlot p = inr i ∧ tag_at p i = Some Free) ∧
       (∀ (E Args : Type) (ctor : Args → E + T) (args : Args) (x : Exchange T),
           pool x = p → (replace ctor args x).1 ≠ Terminated)).
Proof.
  intros T p. split_and!.
  - apply findFreeSlot_inr.
  - apply findFreeSlot_inl.
  - intros Hwf Hsz.
    destruct (sizing_gives_free p Hwf Hsz) as [k Hk].
    destruct (findFreeSlot_some p k Hk) as [i Hi].
    split.
    + exists i. split; [done | by apply findFreeSlot_inr].
    + intros E Args ctor args x <-. unfold replace. rewrite Hi.
      destruct (ctor args); simpl; discriminate.
Qed.

Lemma findFreeSlot_free_or_NoFreeSlot_witness :
  ∃ i, findFreeSlot (mkPool [mkSlot 10 (Reading 1); mkSlot 11 Current; mkSlot 12 Free]
                            (Some 1)) = inr i
       ∧ tag_at (mkPool [mkSlot 10 (Reading 1); mkSlot 11 Current; mkSlot 12 Free]
                        (Some 1)) i = Some Free.
Proof.
  refine (proj1 (proj2 (proj2 (findFreeSlot_free_or_NoFreeSlot nat _)) _ _)).
  - split; simpl.
    + intros [|[|[|i]]] s Hs; simplify_eq/=; first [lia | done].
    + intros c [= <-]. vm_compute. lia.
  - split; [vm_compute; lia|].
    intros i j [Hi [n Hn]] [Hj [m Hm]].
    destruct i as [|[|[|i]]], j as [|[|[|j]]]; simplify_eq/=; done.
Defined.

(** With two slots the fatal branch can be reached: the Current slot and one
    draining slot fill the pool. *)
Example findFreeSlot_two_slots_exhausted :
  findFreeSlot (mkPool [mkSlot 10 (Reading 1); mkSlot 11 Current] (Some 1))
  = inl NoFreeSlot.
Proof. reflexivity. Qed.






(** C5, as stated, fails for [realtimeReplace]: the member is [noexcept], so
    a failure of [T]'s constructor does not reach the caller. *)
Lemma realtimeReplace_failure_not_propagated :
  ¬ (∀ (ctor : nat → unit + nat) (args : nat) (e : unit) (x : Exchange nat) (i : nat)
       (c : Call (Exchange nat) unit unit),
        findFreeSlot (pool x) = inr i → ctor args = inl e →
        realtimeReplace realtimeMutatable (class_ops ctor (Impl realtimeMutatable))
                        None args = Some c →
        propagates (c x) = true).
Proof.
  intros H.
  specialize (H (λ _, inl ()) 5 () (mkExchange (empty_pool 2 0) None None) 0 _
                eq_refl eq_refl eq_refl).
  vm_compute in H. discriminate.
Qed.

(** C5, amended.  When [T]'s constructor fails during a replace, the
    exception reaches the caller of [nonRealtimeReplace]; at
    [realtimeReplace], which is [noexcept], it ends the program instead.  In
    both cases the state is the one before the call: the slot that
    [findFreeSlot] chose is still [Free], no tag has changed, and the value
    published before is still the Current one. *)
Theorem replace_constructor_failure :
  ∀ (T E Args : Type) (ctor : Args → E + T) (args : Args) (e : E)
    (x : Exchange T) (i : nat),
    findFreeSlot (pool x) = inr i → ctor args = inl e →
    (∃ c, nonRealtimeReplace nonRealtimeMutatable
            (class_ops ctor (Impl nonRealtimeMutatable)) None args = Some c
          ∧ c x = (Thrown e, x)) ∧
    (∃ c, realtimeReplace realtimeMutatable
            (class_ops ctor (Impl realtimeMutatable)) None args = Some c
          ∧ c x = (Terminated, x)) ∧
    tag_at (pool x) i = Some Free.
Proof.
  intros T E Args ctor args e x i Hfree Hctor. split_and!.
  - eexists. split; [reflexivity|]. simpl.
    by eapply replace_ctor_fails.
  - eexists. split; [reflexivity|]. simpl. unfold invoke, noexcept. simpl.
    by rewrite (replace_ctor_fails ctor args e x i Hfree Hctor).
  - by apply findFreeSlot_inr.
Qed.

Lemma replace_constructor_failure_witness :
  (∃ c, nonRealtimeReplace nonRealtimeMutatable
          (class_ops (λ _ : nat, inl () : unit + nat) (Impl nonRealtimeMutatable))
          None 5 = Some c
        ∧ c (mkExchange (mkPool [mkSlot 7 Current; mkSlot 0 Free] (Some 0)) None None)
          = (Thrown (),
             mkExchange (mkPool [mkSlot 7 Current; mkSlot 0 Free] (Some 0)) None None)) ∧
  (∃ c, realtimeReplace realtimeMutatable
          (class_ops (λ _ : nat, inl () : unit + nat) (Impl realtimeMutatable))
          None 5 = Some c
        ∧ c (mkExchange (mkPool [mkSlot 7 Current; mkSlot 0 Free] (Some 0)) None None)
          = (Terminated,
             mkExchange (mkPool [mkSlot 7 Current; mkSlot 0 Free] (Some 0)) None None)) ∧
  tag_at (mkPool [mkSlot 7 Current; mkSlot 0 Free] (Some 0)) 1 = Some Free.
Proof.
  refine (replace_constructor_failure nat unit nat (λ _, inl ()) 5 ()
            (mkExchange (mkPool [mkSlot 7 Current; mkSlot 0 Free] (Some 0)) None None)
            1 _ _).
  - reflexivity.
  - reflexivity.
Defined.

(** The real-time members at work on the specification's implementation:
    no exception leaves [realtimeReplace] even when the constructor throws. *)
Lemma realtime_side_noexcept_witness :
  propagates
    (noexcept (replace (λ _ : nat, inl () : unit + nat) 5)
       (mkExchange (empty_pool 2 0) None None)) = false.
Proof.
  refine (proj1 (proj2 (proj2 (proj1 (proj2 realtime_side_noexcept)
            (Exchange nat) unit nat nat realtimeMutatable
            (class_ops (λ _ : nat, inl () : unit + nat) (Impl realtimeMutatable))
            (mkExchange (empty_pool 2 0) None None))))
          None 5 _ _).
  reflexivity.
Defined.

(** * Further properties of the header *)

(** ** The template argument of a replace call *)



(** ** One mutator for each policy *)

(** X3.  Under each policy exactly one side is the mutator: its acquire
    returns [T &] and the other side's returns [const T &], and the
    implementation class is the one written for that side.  Whatever
    template argument a call names, one and only one of the two replace
    templates has a return type. *)
Theorem one_mutator_per_policy :
  ∀ Options : RealtimeObjectOptions,
    (∃ side,
        is_mutator Options side = true ∧
        is_mutator Options (other_side side) = false ∧
        Impl Options = class_of_mutator side ∧
        return_type Options Options (acquire_member side) = Some (TyLRef TyT) ∧
        return_type Options Options (acquire_member (other_side side))
        = Some (TyLRef (TyConst TyT))) ∧
    (∀ O, is_Some (return_type Options O MRealtimeReplace) ↔
          ¬ is_Some (return_type Options O MNonRealtimeReplace)).
Proof.
  intros Options. split.
  - destruct Options; [exists nonRealtime | exists realtime];
      split_and!; reflexivity.
  - intros []; simpl; split.
    + intros [t Ht]. discriminate.
    + intros Hn. destruct Hn. eauto.
    + intros _ [t Ht]. discriminate.
    + intros _. eauto.
Qed.

(** X4.  The declarations of the two sides mirror each other: exchanging
    the policies and the sides turns the return type and the gate of every
    member into those of its counterpart.  The exception specification is
    where the sides differ: of a member and its counterpart exactly one is
    [noexcept]. *)
Theorem interface_mirror :
  ∀ (Options O : RealtimeObjectOptions) (m : Member),
    return_type (other_policy Options) (other_policy O) (mirror m)
    = return_type Options O m ∧
    side_of (mirror m) = other_side (side_of m) ∧
    declared_noexcept (mirror m) = negb (declared_noexcept m) ∧
    mirror (mirror m) = m.
Proof. intros [] [] []; split_and!; reflexivity. Qed.

(** ** Exceptions in straight-line real-time code *)

Lemma and_then_propagates {S E A B} (m : Call S E A) (k : Call S E B) (s : S) :
  propagates (m s) = false → (∀ s', propagates (k s') = false) →
  propagates (and_then m k s) = false.
Proof.
  intros Hm Hk. unfold and_then.
  destruct (m s) as [[a|e|] s']; [apply Hk | discriminate | reflexivity].
Qed.

Lemma rt_call_never_throws {S E R Args} Options (mImpl : ImplOps S E R Args)
    (c : RtCall Args) (m : Call S E unit) (s : S) :
  rt_call Options mImpl c = Some m → propagates (m s) = false.
Proof.
  destruct c as [| |args]; simpl.
  - intros [= <-]. apply and_then_propagates; [|done].
    apply noexcept_never_propagates.
  - intros [= <-]. apply noexcept_never_propagates.
  - intros (_ & body & _ & ->)%realtimeReplace_inv.
    apply noexcept_never_propagates.
Qed.

(** X5.  Code of the real-time thread that is a sequence of calls of
    [realtimeAcquire], [realtimeRelease] and [realtimeReplace], if it
    compiles, never ends in an exception, whatever the implementation does;
    and it compiles with a replace in it only under [realtimeMutatable]. *)
Theorem realtime_program_never_throws :
  ∀ (S E R Args : Type) (Options : RealtimeObjectOptions)
    (mImpl : ImplOps S E R Args) (cs : list (RtCall Args)) (prog : Call S E unit),
    rt_program Options mImpl cs = Some prog →
    (∀ s, propagates (prog s) = false) ∧
    (existsb is_replace cs = true → Options = realtimeMutatable).
Proof.
  intros S E R Args Options mImpl cs. induction cs as [|c cs IH]; intros prog; simpl.
  - intros [= <-]. split; [done | discriminate].
  - destruct (rt_call Options mImpl c) as [m|] eqn:Hm; [|discriminate].
    destruct (rt_program Options mImpl cs) as [k|] eqn:Hk; [|discriminate].
    intros [= <-]. destruct (IH k eq_refl) as [IHp IHr]. split.
    + intros s. apply and_then_propagates; [|exact IHp].
      by eapply rt_call_never_throws.
    + intros [Hc|Hcs]%orb_true_iff; [|by apply IHr].
      destruct c as [| |args]; try discriminate. simpl in Hm.
      by apply realtimeReplace_inv in Hm as [HO _].
Qed.

Lemma realtime_program_never_throws_witness :
  ∃ prog : Call unit unit unit,
    rt_program (R:=unit) realtimeMutatable
      (mkImplOps (throw ()) (throw ()) (Some (λ _ : nat, throw ()))
                 (throw ()) (throw ()) None)
      [RtAcquire; RtReplace 5] = Some prog ∧
    propagates (prog ()) = false.
Proof.
  eexists. split; [reflexivity|].
  refine (proj1 (realtime_program_never_throws unit unit unit nat realtimeMutatable
            (mkImplOps (throw ()) (throw ()) (Some (λ _ : nat, throw ()))
                       (throw ()) (throw ()) None)
            [RtAcquire; RtReplace 5] _ _) ()).
  reflexivity.
Defined.

(** ** Construction from a [T] *)

(** X6.  A [RealtimeObject] is never made from a [T] implicitly: both
    constructors that take a [T] are [explicit], so copy-initialisation from
    a [T] does not compile.  Direct initialisation moves from an rvalue that
    is not const and copies from every other [T]; without an argument the
    defaulted constructor is used. *)
Theorem RealtimeObject_no_implicit_conversion :
  (∀ c k, resolve CopyInit (FromT c k) = None) ∧
  resolve DirectInit (FromT RValue false) = Some MoveFromT ∧
  (∀ c k, (c, k) ≠ (RValue, false) → resolve DirectInit (FromT c k) = Some CopyFromT) ∧
  (∀ form, resolve form NoArgument = Some DefaultConstructor).
Proof.
  split_and!.
  - intros [] []; reflexivity.
  - reflexivity.
  - intros [] [] H; try reflexivity. by destruct H.
  - intros []; reflexivity.
Qed.

Lemma RealtimeObject_no_implicit_conversion_witness :
  resolve DirectInit (FromT LValue false) = Some CopyFromT.
Proof.
  refine (proj1 (proj2 (proj2 RealtimeObject_no_implicit_conversion)) LValue false _).
  discriminate.
Defined.
